(** * A copy-on-write trie (bustub, src/primer/trie.cpp)

    The three operations [Get], [Put] and [Remove] of the persistent trie are
    embedded over an explicit store of nodes: a [std::shared_ptr] to a node is
    a location of the store, the construction of a node ([Clone],
    [make_shared], [new]) allocates a location, and the assignments through
    [prev->children_] update the node stored at [prev].  Sharing between
    snapshots is therefore visible in the model: two tries are two roots into
    one store. *)

From stdpp Require Import gmap strings list.
From Stdlib Require Import ZArith Ascii.

(** ** Values *)

(** The value types the source instantiates the templates with
    (trie.cpp, lines 111-125).  [Integer] is [std::unique_ptr<uint32_t>]: a
    possibly-null owner of one number.  The trie stores a value and hands it
    back; it never inspects one or computes with one.  [MoveBlocked]
    (line 127), a helper around a [std::future] declared in the header, is
    left out. *)
Inductive ValType : Type :=
  | TUint32
  | TUint64
  | TString
  | TInteger.

Global Instance ValType_eq_dec : EqDecision ValType.
Proof. solve_decision. Defined.

Definition denote (T : ValType) : Type :=
  match T with
  | TUint32 => Z
  | TUint64 => Z
  | TString => string
  | TInteger => option Z
  end.

(** ** Nodes and the store *)

Abbreviation loc := nat.

(** Modelled from the spec: the node classes of primer/trie.h, which is not
    part of the sources at hand.  A [TrieNode] is a mapping from symbol to a
    shared child; a [TrieNodeWithValue<T>] is the variant that additionally
    owns a value of type [T]. *)
Inductive TrieNode : Type :=
  | mkTrieNode (children : gmap ascii loc)
  | TrieNodeWithValue (T : ValType) (children : gmap ascii loc) (value : denote T).

Definition children_ (n : TrieNode) : gmap ascii loc :=
  match n with
  | mkTrieNode c => c
  | TrieNodeWithValue _ c _ => c
  end.

(** Modelled from the spec: [Clone] of primer/trie.h, a one-level copy that
    keeps the children mapping and, for a value-bearing node, the value. *)
Definition Clone (n : TrieNode) : TrieNode :=
  match n with
  | mkTrieNode c => mkTrieNode c
  | TrieNodeWithValue T c v => TrieNodeWithValue T c v
  end.

(** The node [n] after [n.children_[ch] = cur]. *)
Definition with_child (n : TrieNode) (ch : ascii) (cur : loc) : TrieNode :=
  match n with
  | mkTrieNode c => mkTrieNode (<[ch := cur]> c)
  | TrieNodeWithValue T c v => TrieNodeWithValue T (<[ch := cur]> c) v
  end.

(** The store: every node ever constructed, indexed by its location. *)
Abbreviation Store := (list TrieNode).

(** Dereferencing a shared pointer.  A shared pointer never dangles; the
    predicate [closed] below states that of a store. *)
Definition deref (σ : Store) (l : loc) : TrieNode :=
  default (mkTrieNode ∅) (σ !! l).

Definition alloc (σ : Store) (n : TrieNode) : Store * loc :=
  (σ ++ [n], length σ).

(** [prev->children_] is assigned [cur] at [ch], through [it->second = cur]
    when the entry exists and through [insert] when it does not. *)
Definition set_child (σ : Store) (prev : loc) (ch : ascii) (cur : loc) : Store :=
  <[prev := with_child (deref σ prev) ch cur]> σ.

(** The handle: a root pointer, [None] for [nullptr]. *)
Record Trie : Type := mkTrie { root_ : option loc }.

(** ** GetTrieNode and Get *)

(** The loop of [GetTrieNode], from the current pointer [cur]. *)
Fixpoint walk (σ : Store) (cur : option loc) (key : string) : option loc :=
  match key with
  | EmptyString => cur
  | String ch rest =>
      match cur with
      | None => None
      | Some l =>
          match children_ (deref σ l) !! ch with
          | None => None
          | Some l' => walk σ (Some l') rest
          end
      end
  end.

Definition GetTrieNode (σ : Store) (t : Trie) (key : string) : option loc :=
  walk σ (root_ t) key.

(** [dynamic_cast<const TrieNodeWithValue<T>*>] followed by [value_.get()]. *)
Definition dynamic_cast (T : ValType) (n : option TrieNode) : option (denote T) :=
  match n with
  | Some (TrieNodeWithValue T' _ v) =>
      match decide (T' = T) with
      | left e => Some (eq_rect T' denote v T e)
      | right _ => None
      end
  | _ => None
  end.

Definition Get (T : ValType) (σ : Store) (t : Trie) (key : string) : option (denote T) :=
  let cur := GetTrieNode σ t key in
  dynamic_cast T (deref σ <$> cur).

(** ** Put *)

(** The loop of [Put] from index [i], [key] being the symbols not yet
    consumed; [rest = ""] is the test [i+1 == key.size()]. *)
Fixpoint Put_loop (T : ValType) (σ : Store) (cur : loc) (key : string)
    (value : denote T) : Store :=
  match key with
  | EmptyString => σ
  | String ch rest =>
      let prev := cur in
      let it := children_ (deref σ prev) !! ch in
      let node :=
        match rest, it with
        | EmptyString, _ => TrieNodeWithValue T ∅ value
        | _, Some l => Clone (deref σ l)
        | _, None => mkTrieNode ∅
        end in
      let '(σ1, cur') := alloc σ node in
      Put_loop T (set_child σ1 prev ch cur') cur' rest value
  end.

Definition Put (T : ValType) (σ : Store) (t : Trie) (key : string)
    (value : denote T) : Store * Trie :=
  match key with
  | EmptyString => (σ, mkTrie (root_ t))
  | _ =>
      let '(σ0, root) :=
        alloc σ match root_ t with
                | Some r => Clone (deref σ r)
                | None => mkTrieNode ∅
                end in
      (Put_loop T σ0 root key value, mkTrie (Some root))
  end.

(** ** Remove *)

(** The loop of [Remove].  The guard of [Remove] makes every [find]
    succeed; were it to fail, the source would dereference [end()], and the
    model stops. *)
Fixpoint Remove_loop (σ : Store) (cur : loc) (key : string) : Store :=
  match key with
  | EmptyString => σ
  | String ch rest =>
      let prev := cur in
      match children_ (deref σ prev) !! ch with
      | None => σ
      | Some l =>
          match rest with
          | EmptyString =>
              let '(σ1, cur') := alloc σ (mkTrieNode (children_ (deref σ l))) in
              if decide (children_ (deref σ1 cur') = ∅) then σ1
              else set_child σ1 prev ch cur'
          | _ =>
              let '(σ1, cur') := alloc σ (Clone (deref σ l)) in
              Remove_loop (set_child σ1 prev ch cur') cur' rest
          end
      end
  end.

Definition Remove (σ : Store) (t : Trie) (key : string) : Store * Trie :=
  match key, root_ t, GetTrieNode σ t key with
  | String _ _, Some r, Some _ =>
      let '(σ0, root) := alloc σ (Clone (deref σ r)) in
      (Remove_loop σ0 root key, mkTrie (Some root))
  | _, _, _ => (σ, mkTrie (root_ t))
  end.

(** ** Well-formed stores *)

(** Every pointer held by a node of the store is allocated. *)
Definition closed (σ : Store) : Prop :=
  Forall (λ n, map_Forall (λ (_ : ascii) (l : loc), l < length σ) (children_ n)) σ.

Definition wf (σ : Store) (t : Trie) : Prop :=
  closed σ ∧ from_option (λ r, r < length σ) True (root_ t).

Global Instance closed_dec σ : Decision (closed σ).
Proof. unfold closed. apply _. Defined.

Global Instance wf_dec σ t : Decision (wf σ t).
Proof. unfold wf. destruct (root_ t); simpl; apply _. Defined.

(** The empty trie, [Trie()]. *)
Definition empty_trie : Trie := mkTrie None.

(** ** Observations *)

(** A stored value together with its type, as a node carries it. *)
Definition AnyValue : Type := sigT denote.

Definition payload (n : TrieNode) : option AnyValue :=
  match n with
  | mkTrieNode _ => None
  | TrieNodeWithValue T _ v => Some (existT T v)
  end.

(** The downcast of a payload to the requested type. *)
Definition cast (T : ValType) (a : AnyValue) : option (denote T) :=
  match decide (projT1 a = T) with
  | left e => Some (eq_rect (projT1 a) denote (projT2 a) T e)
  | right _ => None
  end.

(** The node reached from [cur] along [key]. *)
Definition lookup_node (σ : Store) (cur : option loc) (key : string) : option TrieNode :=
  deref σ <$> walk σ cur key.

(** The shape of a trie at [key]: [None] when no node is reached,
    [Some None] for a node without a value, [Some (Some a)] for a node that
    carries [a].  Two tries with the same shape at every key are the same
    tree. *)
Definition shape (σ : Store) (cur : option loc) (key : string) : option (option AnyValue) :=
  payload <$> lookup_node σ cur key.

(** The value stored at [key], of whatever type. *)
Definition val (σ : Store) (cur : option loc) (key : string) : option AnyValue :=
  lookup_node σ cur key ≫= payload.

(** Structural equivalence of two snapshots. *)
Definition trie_equiv (s1 s2 : Store * Trie) : Prop :=
  ∀ key, shape s1.1 (root_ s1.2) key = shape s2.1 (root_ s2.2) key.

(** [k] is a proper prefix of [k']. *)
Fixpoint proper_prefix (k k' : string) : bool :=
  match k, k' with
  | EmptyString, EmptyString => false
  | EmptyString, String _ _ => true
  | String _ _, EmptyString => false
  | String a r, String b r' => if decide (a = b) then proper_prefix r r' else false
  end.

(** The pointers of the locations below [n0] stay below [n0]. *)
Definition old_closed (n0 : nat) (σ : Store) : Prop :=
  ∀ l, l < n0 → map_Forall (λ (_ : ascii) (l' : loc), l' < n0) (children_ (deref σ l)).

(** Two stores hold the same nodes below [n0]. *)
Definition agree (n0 : nat) (σ' σ : Store) : Prop :=
  ∀ l, l < n0 → deref σ' l = deref σ l.

(** ** Specification-side definitions *)

(** The key's walk, as a relation: every symbol has a child. *)
Inductive path (σ : Store) : loc → string → loc → Prop :=
  | path_nil l : path σ l EmptyString l
  | path_cons l c r l' l'' :
      children_ (deref σ l) !! c = Some l' →
      path σ l' r l'' →
      path σ l (String c r) l''.

(** Whether [Remove] takes the value off the node at [key]: the path of a
    non-empty [key] exists and its node has children. *)
Definition Remove_strips (σ : Store) (t : Trie) (key : string) : bool :=
  match key, GetTrieNode σ t key with
  | String _ _, Some l => bool_decide (children_ (deref σ l) ≠ ∅)
  | _, _ => false
  end.

(** ** Sample tries *)

(** A trie with ["a"] bound to a 32-bit number and ["ab"] to a string. *)
Definition sample : Store * Trie :=
  let s := Put TUint32 [] empty_trie "a" 1%Z in
  Put TString s.1 s.2 "ab" "x".

(** A trie with ["ab"] alone. *)
Definition sample_ab : Store * Trie := Put TUint32 [] empty_trie "ab" 1%Z.

(** ** The store *)

Lemma Clone_id n : Clone n = n.
Proof. by destruct n. Qed.

Lemma children_with_child n ch cur :
  children_ (with_child n ch cur) = <[ch := cur]> (children_ n).
Proof. by destruct n. Qed.

Lemma payload_with_child n ch cur : payload (with_child n ch cur) = payload n.
Proof. by destruct n. Qed.

Lemma deref_alloc_new σ n : deref (σ ++ [n]) (length σ) = n.
Proof. unfold deref. by rewrite (list_lookup_middle σ [] n (length σ) eq_refl). Qed.

Lemma deref_alloc_old σ n l : l < length σ → deref (σ ++ [n]) l = deref σ l.
Proof. intros Hl. unfold deref. by rewrite lookup_app_l. Qed.

Lemma deref_set_child_eq σ prev ch cur :
  prev < length σ →
  deref (set_child σ prev ch cur) prev = with_child (deref σ prev) ch cur.
Proof. intros Hl. unfold set_child, deref at 1. by rewrite list_lookup_insert_eq. Qed.

Lemma deref_set_child_ne σ prev ch cur l :
  l ≠ prev → deref (set_child σ prev ch cur) l = deref σ l.
Proof. intros Hl. unfold set_child, deref at 1. by rewrite list_lookup_insert_ne. Qed.

Lemma length_set_child σ prev ch cur : length (set_child σ prev ch cur) = length σ.
Proof. apply length_insert. Qed.

Lemma closed_old_closed σ : closed σ → old_closed (length σ) σ.
Proof.
  intros Hc l Hl. destruct (lookup_lt_is_Some_2 σ l Hl) as [n Hn].
  unfold deref. rewrite Hn. simpl.
  exact (proj1 (Forall_lookup _ σ) Hc l n Hn).
Qed.

Lemma agree_refl n0 σ : agree n0 σ σ.
Proof. by intros l _. Qed.

Lemma old_closed_agree n0 σ σ' : old_closed n0 σ → agree n0 σ' σ → old_closed n0 σ'.
Proof. intros Hc Ha l Hl. rewrite Ha by done. by apply Hc. Qed.

(** ** Walks through the old part of a store *)

Lemma walk_None σ key : walk σ None key = None.
Proof. by destruct key. Qed.

Lemma walk_old n0 σ σ' key l :
  old_closed n0 σ → agree n0 σ' σ → l < n0 →
  walk σ' (Some l) key = walk σ (Some l) key.
Proof.
  intros Hc Ha. revert l. induction key as [|c r IH]; intros l Hl; [done|].
  simpl. rewrite Ha by done.
  destruct (children_ (deref σ l) !! c) as [l'|] eqn:E; [|done].
  apply IH. exact (Hc l Hl c l' E).
Qed.

Lemma walk_old_bound n0 σ key l l' :
  old_closed n0 σ → l < n0 → walk σ (Some l) key = Some l' → l' < n0.
Proof.
  intros Hc. revert l. induction key as [|c r IH]; intros l Hl; simpl.
  - by intros [= <-].
  - destruct (children_ (deref σ l) !! c) as [l1|] eqn:E; [|done].
    apply IH. exact (Hc l Hl c l1 E).
Qed.

Lemma lookup_node_old n0 σ σ' key l :
  old_closed n0 σ → agree n0 σ' σ → l < n0 →
  lookup_node σ' (Some l) key = lookup_node σ (Some l) key.
Proof.
  intros Hc Ha Hl. unfold lookup_node. rewrite (walk_old n0 σ σ') by done.
  destruct (walk σ (Some l) key) as [l'|] eqn:E; [|done]. simpl.
  f_equal. apply Ha. by eapply walk_old_bound.
Qed.

(** A node with the children of an old node leads where the old node leads. *)
Lemma walk_children n0 σ σ' x y c r :
  old_closed n0 σ → agree n0 σ' σ →
  map_Forall (λ (_ : ascii) (l' : loc), l' < n0) (children_ (deref σ y)) →
  children_ (deref σ' x) = children_ (deref σ y) →
  walk σ' (Some x) (String c r) = walk σ (Some y) (String c r).
Proof.
  intros Hc Ha Hy Hxy. simpl. rewrite Hxy.
  destruct (children_ (deref σ y) !! c) as [l'|] eqn:E; [|done].
  apply (walk_old n0); [done..|]. exact (Hy c l' E).
Qed.

Lemma lookup_node_children n0 σ σ' x y c r :
  old_closed n0 σ → agree n0 σ' σ →
  map_Forall (λ (_ : ascii) (l' : loc), l' < n0) (children_ (deref σ y)) →
  children_ (deref σ' x) = children_ (deref σ y) →
  lookup_node σ' (Some x) (String c r) = lookup_node σ (Some y) (String c r).
Proof.
  intros Hc Ha Hy Hxy. unfold lookup_node. simpl. rewrite Hxy.
  destruct (children_ (deref σ y) !! c) as [l'|] eqn:E; [|done].
  apply (lookup_node_old n0); [done..|]. exact (Hy c l' E).
Qed.

Lemma lookup_node_same n0 σ σ' x y key :
  old_closed n0 σ → agree n0 σ' σ →
  map_Forall (λ (_ : ascii) (l' : loc), l' < n0) (children_ (deref σ y)) →
  deref σ' x = deref σ y →
  lookup_node σ' (Some x) key = lookup_node σ (Some y) key.
Proof.
  intros Hc Ha Hy Hxy. destruct key as [|c r].
  - unfold lookup_node. simpl. by rewrite Hxy.
  - apply (lookup_node_children n0); [done..|]. by rewrite Hxy.
Qed.

(** ** Unfolding the observations *)

Lemma val_nil σ l : val σ (Some l) EmptyString = payload (deref σ l).
Proof. done. Qed.

Lemma val_cons σ l c r :
  val σ (Some l) (String c r)
  = match children_ (deref σ l) !! c with
    | Some l' => val σ (Some l') r
    | None => None
    end.
Proof. unfold val, lookup_node. simpl. by destruct (children_ (deref σ l) !! c). Qed.

Lemma shape_nil σ l : shape σ (Some l) EmptyString = Some (payload (deref σ l)).
Proof. done. Qed.

Lemma shape_cons σ l c r :
  shape σ (Some l) (String c r)
  = match children_ (deref σ l) !! c with
    | Some l' => shape σ (Some l') r
    | None => None
    end.
Proof. unfold shape, lookup_node. simpl. by destruct (children_ (deref σ l) !! c). Qed.

Lemma val_shape σ cur key : val σ cur key = shape σ cur key ≫= id.
Proof. unfold val, shape. by destruct (lookup_node σ cur key). Qed.

Lemma val_old n0 σ σ' key l :
  old_closed n0 σ → agree n0 σ' σ → l < n0 →
  val σ' (Some l) key = val σ (Some l) key.
Proof. intros. unfold val. by rewrite (lookup_node_old n0 σ σ'). Qed.

Lemma shape_old n0 σ σ' key l :
  old_closed n0 σ → agree n0 σ' σ → l < n0 →
  shape σ' (Some l) key = shape σ (Some l) key.
Proof. intros. unfold shape. by rewrite (lookup_node_old n0 σ σ'). Qed.

(** ** The loop of Put *)

(** The loop only ever writes to [cur] and to the locations it allocates. *)
Lemma Put_loop_frame T key : ∀ σ cur (v : denote T),
  length σ ≤ length (Put_loop T σ cur key v) ∧
  ∀ l, l < length σ → l ≠ cur → deref (Put_loop T σ cur key v) l = deref σ l.
Proof.
  induction key as [|ch rest IH]; intros σ cur v; [done|].
  cbn [Put_loop alloc].
  set (node := match rest with EmptyString => _ | _ => _ end).
  destruct (IH (set_child (σ ++ [node]) cur ch (length σ)) (length σ) v) as [Hlen Hfr].
  rewrite length_set_child, length_app in Hlen, Hfr. simpl in Hlen, Hfr.
  split; [lia|]. intros l Hl Hne.
  rewrite Hfr by lia.
  rewrite deref_set_child_ne by done. by apply deref_alloc_old.
Qed.

Lemma Put_loop_cur T ch rest σ cur (v : denote T) :
  cur < length σ →
  deref (Put_loop T σ cur (String ch rest) v) cur
  = with_child (deref σ cur) ch (length σ).
Proof.
  intros Hcur. cbn [Put_loop alloc].
  set (node := match rest with EmptyString => _ | _ => _ end).
  destruct (Put_loop_frame T rest (set_child (σ ++ [node]) cur ch (length σ)) (length σ) v)
    as [_ Hfr].
  rewrite length_set_child, length_app in Hfr. simpl in Hfr.
  rewrite Hfr by lia.
  rewrite deref_set_child_eq by (rewrite length_app; simpl; lia).
  by rewrite deref_alloc_old.
Qed.

Lemma Put_loop_agree T key n0 σ cur (v : denote T) :
  n0 ≤ cur → cur < length σ → agree n0 (Put_loop T σ cur key v) σ.
Proof.
  intros H0 Hcur l Hl.
  apply (Put_loop_frame T key σ cur v); lia.
Qed.

(** What the loop of [Put] makes retrievable below [cur]: the value at
    [key], nothing at the keys that extend [key], and what was there
    before at every other key. *)
Lemma Put_loop_val T key : ∀ n0 σ cur (v : denote T) k',
  key ≠ EmptyString →
  old_closed n0 σ → n0 ≤ cur → cur < length σ →
  map_Forall (λ (_ : ascii) (l' : loc), l' < n0) (children_ (deref σ cur)) →
  val (Put_loop T σ cur key v) (Some cur) k'
  = if decide (k' = key) then Some (existT T v)
    else if proper_prefix key k' then None
    else val σ (Some cur) k'.
Proof.
  induction key as [|ch rest IH]; intros n0 σ cur v k' Hne Hc H0 Hcur Hch; [done|].
  pose proof (Put_loop_agree T (String ch rest) n0 σ cur v H0 Hcur) as Hag.
  pose proof (Put_loop_cur T ch rest σ cur v Hcur) as Hcur'.
  destruct k' as [|c' r'].
  { rewrite decide_False by done. cbn [proper_prefix].
    by rewrite !val_nil, Hcur', payload_with_child. }
  rewrite !val_cons, Hcur', children_with_child.
  destruct (decide (c' = ch)) as [->|Hcc].
  2:{ rewrite decide_False by congruence.
      cbn [proper_prefix]. rewrite decide_False by congruence.
      rewrite lookup_insert_ne by done.
      destruct (children_ (deref σ cur) !! c') as [l'|] eqn:E; [|done].
      apply (val_old n0); [done..|]. exact (Hch c' l' E). }
  rewrite lookup_insert_eq. cbn [proper_prefix].
  rewrite (decide_True (P := ch = ch)) by done.
  cbn [Put_loop alloc].
  set (node := match rest with EmptyString => _ | _ => _ end).
  set (σ2 := set_child (σ ++ [node]) cur ch (length σ)).
  assert (Hnew : deref σ2 (length σ) = node).
  { unfold σ2. rewrite deref_set_child_ne by lia. apply deref_alloc_new. }
  assert (Hag2 : agree n0 σ2 σ).
  { intros l Hl. unfold σ2. rewrite deref_set_child_ne by lia.
    apply deref_alloc_old. lia. }
  destruct rest as [|c2 rest2].
  { cbn [Put_loop]. subst node. destruct r' as [|c3 r3].
    - rewrite decide_True by done. by rewrite val_nil, Hnew.
    - rewrite decide_False by done. cbn [proper_prefix].
      by rewrite val_cons, Hnew. }
  assert (Hl2 : length σ2 = S (length σ)).
  { unfold σ2. rewrite length_set_child, length_app. simpl. lia. }
  assert (Hit : match children_ (deref σ cur) !! ch with
                | Some l => l < n0 ∧ node = deref σ l
                | None => node = mkTrieNode ∅
                end).
  { subst node. destruct (children_ (deref σ cur) !! ch) as [l|] eqn:E; [|done].
    split; [exact (Hch ch l E)|apply Clone_id]. }
  rewrite (IH n0 σ2 (length σ) v r'); [|done|by eapply old_closed_agree|lia|lia|].
  2:{ rewrite Hnew. destruct (children_ (deref σ cur) !! ch) as [l|].
      - destruct Hit as [Hl ->]. by apply Hc.
      - rewrite Hit. apply map_Forall_empty. }
  destruct (decide (r' = String c2 rest2)) as [->|Hr].
  { by rewrite decide_True. }
  rewrite decide_False by congruence.
  destruct (proper_prefix (String c2 rest2) r'); [done|].
  destruct (children_ (deref σ cur) !! ch) as [l|].
  - destruct Hit as [Hl Hn]. unfold val. f_equal.
    apply (lookup_node_same n0); [done..|by apply Hc|congruence].
  - destruct r' as [|c3 r3].
    + by rewrite val_nil, Hnew, Hit.
    + by rewrite val_cons, Hnew, Hit.
Qed.

(** The path of [key] below [cur] ends, after the loop, on a node that
    carries [v] and has no children. *)
Lemma Put_loop_on_path T key : ∀ σ cur (v : denote T),
  key ≠ EmptyString → cur < length σ →
  ∃ l, walk (Put_loop T σ cur key v) (Some cur) key = Some l
       ∧ deref (Put_loop T σ cur key v) l = TrieNodeWithValue T ∅ v.
Proof.
  induction key as [|ch rest IH]; intros σ cur v Hne Hcur; [done|].
  cbn [walk]. rewrite Put_loop_cur, children_with_child, lookup_insert_eq by done.
  cbn [Put_loop alloc].
  set (node := match rest with EmptyString => _ | _ => _ end).
  set (σ2 := set_child (σ ++ [node]) cur ch (length σ)).
  assert (Hl2 : length σ2 = S (length σ)).
  { unfold σ2. rewrite length_set_child, length_app. simpl. lia. }
  destruct rest as [|c2 rest2].
  - exists (length σ). split; [done|]. cbn [Put_loop]. unfold σ2.
    rewrite deref_set_child_ne by lia. apply deref_alloc_new.
  - apply IH; [done|lia].
Qed.

(** ** Well-formedness is an invariant *)

Lemma closed_alt σ :
  closed σ ↔ ∀ l, map_Forall (λ (_ : ascii) (l' : loc), l' < length σ) (children_ (deref σ l)).
Proof.
  split.
  - intros Hc l. destruct (decide (l < length σ)) as [Hl|Hl].
    + by apply closed_old_closed.
    + unfold deref. rewrite lookup_ge_None_2 by lia. apply map_Forall_empty.
  - intros H. apply Forall_lookup. intros l n Hn.
    specialize (H l). unfold deref in H. by rewrite Hn in H.
Qed.

Lemma closed_alloc σ n :
  closed σ → map_Forall (λ (_ : ascii) (l' : loc), l' < length σ) (children_ n) →
  closed (σ ++ [n]).
Proof.
  intros Hc Hn. unfold closed. rewrite length_app. simpl.
  apply Forall_app. split.
  - eapply Forall_impl; [exact Hc|]. intros m Hm. simpl in Hm.
    eapply map_Forall_impl; [exact Hm|]. simpl. intros; lia.
  - constructor; [|constructor].
    eapply map_Forall_impl; [exact Hn|]. simpl. intros; lia.
Qed.

Lemma closed_set_child σ prev ch cur :
  closed σ → cur < length σ → closed (set_child σ prev ch cur).
Proof.
  intros Hc Hcur. apply closed_alt. intros l. rewrite length_set_child.
  destruct (decide (l = prev)) as [->|Hne].
  - destruct (decide (prev < length σ)) as [Hp|Hp].
    + rewrite deref_set_child_eq, children_with_child by done.
      apply map_Forall_insert_2; [done|]. by apply closed_alt.
    + unfold set_child. rewrite list_insert_ge by lia. by apply closed_alt.
  - rewrite deref_set_child_ne by done. by apply closed_alt.
Qed.

Lemma closed_Clone σ l :
  closed σ → map_Forall (λ (_ : ascii) (l' : loc), l' < length σ) (children_ (Clone (deref σ l))).
Proof. intros Hc. rewrite Clone_id. by apply closed_alt. Qed.

Lemma Put_loop_closed T key : ∀ σ cur (v : denote T),
  closed σ → closed (Put_loop T σ cur key v).
Proof.
  induction key as [|ch rest IH]; intros σ cur v Hc; [done|].
  cbn [Put_loop alloc]. apply IH.
  apply closed_set_child; [|rewrite length_app; simpl; lia].
  apply closed_alloc; [done|].
  destruct rest; [apply map_Forall_empty|].
  destruct (children_ (deref σ cur) !! ch);
    [by apply closed_Clone|apply map_Forall_empty].
Qed.

(** The empty trie is well formed, over any closed store. *)
Lemma wf_empty : wf [] empty_trie.
Proof. split; [constructor|done]. Qed.

Lemma Put_wf T σ t key (v : denote T) :
  wf σ t → wf (Put T σ t key v).1 (Put T σ t key v).2.
Proof.
  intros [Hc Hr]. destruct key as [|ch rest]; [done|].
  unfold Put. cbn [alloc fst snd root_].
  set (node := match root_ t with Some r => _ | None => _ end).
  split.
  - apply Put_loop_closed, closed_alloc; [done|].
    subst node. destruct (root_ t); [by apply closed_Clone|apply map_Forall_empty].
  - simpl.
    pose proof (proj1 (Put_loop_frame T (String ch rest) (σ ++ [node]) (length σ) v)) as Hlen.
    rewrite length_app in Hlen. simpl in Hlen. lia.
Qed.

(** ** Put, at the level of the trie *)

(** [Put] leaves every node that existed before as it was. *)
Lemma Put_agree T σ t key (v : denote T) : agree (length σ) (Put T σ t key v).1 σ.
Proof.
  destruct key as [|ch rest]; [apply agree_refl|].
  unfold Put. cbn [alloc fst].
  set (node := match root_ t with Some r => _ | None => _ end).
  intros l Hl.
  rewrite (proj2 (Put_loop_frame T (String ch rest) (σ ++ [node]) (length σ) v));
    [by apply deref_alloc_old|rewrite length_app; simpl; lia|lia].
Qed.

Lemma Put_val T σ t key (v : denote T) k' :
  key ≠ EmptyString → wf σ t →
  val (Put T σ t key v).1 (root_ (Put T σ t key v).2) k'
  = if decide (k' = key) then Some (existT T v)
    else if proper_prefix key k' then None
    else val σ (root_ t) k'.
Proof.
  intros Hne [Hc Hr]. destruct key as [|ch rest]; [done|].
  unfold Put. cbn [alloc fst snd root_].
  set (node := match root_ t with Some r => _ | None => _ end).
  assert (Hag : agree (length σ) (σ ++ [node]) σ).
  { intros l Hl. by apply deref_alloc_old. }
  assert (Hoc : old_closed (length σ) (σ ++ [node])).
  { eapply old_closed_agree; [|done]. by apply closed_old_closed. }
  rewrite (Put_loop_val T (String ch rest) (length σ)); [|done|done|lia| |].
  2:{ rewrite length_app. simpl. lia. }
  2:{ rewrite deref_alloc_new. subst node.
      destruct (root_ t); [by apply closed_Clone|apply map_Forall_empty]. }
  destruct (decide (k' = String ch rest)); [done|].
  destruct (proper_prefix (String ch rest) k'); [done|].
  destruct (root_ t) as [r|] eqn:Er.
  - unfold val. f_equal. simpl in Hr.
    apply (lookup_node_same (length σ));
      [by apply closed_old_closed|done|by apply closed_alt|].
    rewrite deref_alloc_new. apply Clone_id.
  - unfold val, lookup_node. rewrite walk_None. destruct k' as [|c r]; simpl.
    + by rewrite deref_alloc_new.
    + by rewrite deref_alloc_new.
Qed.

(** ** The loop of Remove *)

Lemma Remove_loop_frame key : ∀ σ cur,
  length σ ≤ length (Remove_loop σ cur key) ∧
  ∀ l, l < length σ → l ≠ cur → deref (Remove_loop σ cur key) l = deref σ l.
Proof.
  induction key as [|ch rest IH]; intros σ cur; [done|].
  cbn [Remove_loop].
  destruct (children_ (deref σ cur) !! ch) as [l0|]; [|done].
  destruct rest as [|c2 rest2].
  - cbn [alloc]. case_decide.
    + rewrite length_app. split; [lia|]. intros l Hl _. by apply deref_alloc_old.
    + rewrite length_set_child, length_app. split; [lia|]. intros l Hl Hne.
      rewrite deref_set_child_ne by done. by apply deref_alloc_old.
  - cbn [alloc].
    destruct (IH (set_child (σ ++ [Clone (deref σ l0)]) cur ch (length σ)) (length σ))
      as [Hlen Hfr].
    rewrite length_set_child, length_app in Hlen, Hfr. cbn [length] in Hlen, Hfr.
    split; [lia|]. intros l Hl Hne.
    rewrite Hfr by lia.
    rewrite deref_set_child_ne by done. by apply deref_alloc_old.
Qed.

Lemma Remove_loop_agree key n0 σ cur :
  n0 ≤ cur → cur < length σ → agree n0 (Remove_loop σ cur key) σ.
Proof.
  intros H0 Hcur l Hl. apply (Remove_loop_frame key σ cur); lia.
Qed.

(** The node at [cur] after the loop: its entry for the first symbol points
    to the replacement the loop built, unless the replacement was a childless
    last node, in which case the entry is as it was. *)
Lemma Remove_loop_cur ch rest σ cur l0 :
  cur < length σ → children_ (deref σ cur) !! ch = Some l0 →
  deref (Remove_loop σ cur (String ch rest)) cur
  = if decide (rest = EmptyString ∧ children_ (deref σ l0) = ∅) then deref σ cur
    else with_child (deref σ cur) ch (length σ).
Proof.
  intros Hcur E. cbn [Remove_loop]. rewrite E.
  assert (Hl1 : cur < length (σ ++ [Clone (deref σ l0)])).
  { rewrite length_app. simpl. lia. }
  destruct rest as [|c2 rest2].
  - cbn [alloc]. rewrite deref_alloc_new. cbn [children_].
    destruct (decide (children_ (deref σ l0) = ∅)) as [He|He].
    + rewrite decide_True by done. by apply deref_alloc_old.
    + rewrite decide_False by tauto.
      rewrite deref_set_child_eq by (rewrite length_app; simpl; lia).
      by rewrite deref_alloc_old.
  - rewrite decide_False by (intros [? _]; done). cbn [alloc].
    destruct (Remove_loop_frame (String c2 rest2)
                (set_child (σ ++ [Clone (deref σ l0)]) cur ch (length σ)) (length σ))
      as [_ Hfr].
    rewrite length_set_child, length_app in Hfr. cbn [length] in Hfr.
    rewrite Hfr by lia.
    rewrite deref_set_child_eq by done. by rewrite deref_alloc_old.
Qed.

(** The shape below [cur] after the loop of [Remove]: the node at [key]
    loses its value when it has children, and nothing else changes. *)
Lemma Remove_loop_shape key : ∀ n0 σ cur lk k',
  old_closed n0 σ → n0 ≤ cur → cur < length σ →
  map_Forall (λ (_ : ascii) (l' : loc), l' < n0) (children_ (deref σ cur)) →
  key ≠ EmptyString → walk σ (Some cur) key = Some lk →
  shape (Remove_loop σ cur key) (Some cur) k'
  = if decide (k' = key)
    then (if decide (children_ (deref σ lk) = ∅) then shape σ (Some cur) k' else Some None)
    else shape σ (Some cur) k'.
Proof.
  induction key as [|ch rest IH]; intros n0 σ cur lk k' Hc H0 Hcur Hch Hne Hwalk; [done|].
  pose proof (Remove_loop_agree (String ch rest) n0 σ cur H0 Hcur) as Hag.
  cbn [walk] in Hwalk.
  destruct (children_ (deref σ cur) !! ch) as [l0|] eqn:E; [|done].
  assert (Hl0 : l0 < n0) by exact (Hch ch l0 E).
  assert (Hlk : lk < n0) by (by eapply walk_old_bound).
  pose proof (Remove_loop_cur ch rest σ cur l0 Hcur E) as Hcur'.
  destruct k' as [|c' r'].
  { rewrite decide_False by done. rewrite !shape_nil. f_equal. rewrite Hcur'.
    case_decide; [done|apply payload_with_child]. }
  rewrite (shape_cons (Remove_loop σ cur (String ch rest))), Hcur'.
  destruct (decide (c' = ch)) as [->|Hcc].
  2:{ rewrite (decide_False (P := String c' r' = String ch rest)) by congruence.
      rewrite shape_cons.
      replace (children_ (if decide (rest = EmptyString ∧ children_ (deref σ l0) = ∅)
                          then deref σ cur
                          else with_child (deref σ cur) ch (length σ)) !! c')
        with (children_ (deref σ cur) !! c').
      2:{ case_decide; [done|]. by rewrite children_with_child, lookup_insert_ne. }
      destruct (children_ (deref σ cur) !! c') as [l'|] eqn:E'; [|done].
      apply (shape_old n0); [done..|]. exact (Hch c' l' E'). }
  assert (Hrhs : shape σ (Some cur) (String ch r') = shape σ (Some l0) r').
  { by rewrite shape_cons, E. }
  rewrite Hrhs. clear Hrhs.
  destruct rest as [|c2 rest2].
  - injection Hwalk as ->.
    cbn [Remove_loop alloc] in *. rewrite E in *. rewrite deref_alloc_new in *.
    cbn [children_] in *.
    destruct (decide (children_ (deref σ lk) = ∅)) as [He|He].
    + rewrite decide_True by done. rewrite E.
      transitivity (shape σ (Some lk) r'); [|by destruct (decide (String ch r' = String ch EmptyString))].
      by apply (shape_old n0).
    + rewrite decide_False by tauto.
      rewrite children_with_child, lookup_insert_eq.
      destruct r' as [|c3 r3].
      * rewrite decide_True by done.
        rewrite shape_nil, deref_set_child_ne by lia. by rewrite deref_alloc_new.
      * rewrite decide_False by done. unfold shape. f_equal.
        apply (lookup_node_children n0); [done|done|by apply Hc|].
        rewrite deref_set_child_ne by lia. by rewrite deref_alloc_new.
  - rewrite decide_False by (intros [? _]; done).
    rewrite children_with_child, lookup_insert_eq.
    cbn [Remove_loop alloc] in *. rewrite E in *.
    set (σ2 := set_child (σ ++ [Clone (deref σ l0)]) cur ch (length σ)) in *.
    assert (Hl2 : length σ2 = S (length σ)).
    { unfold σ2. rewrite length_set_child, length_app. simpl. lia. }
    assert (Hnew : deref σ2 (length σ) = deref σ l0).
    { unfold σ2. rewrite deref_set_child_ne by lia.
      rewrite deref_alloc_new. apply Clone_id. }
    assert (Hag2 : agree n0 σ2 σ).
    { intros l Hl. unfold σ2. rewrite deref_set_child_ne by lia.
      apply deref_alloc_old. lia. }
    rewrite (IH n0 σ2 (length σ) lk r');
      [|by eapply old_closed_agree|lia|lia| |done|].
    2:{ rewrite Hnew. by apply Hc. }
    2:{ rewrite <- Hwalk. apply (walk_children n0); [done|done|by apply Hc|].
        by rewrite Hnew. }
    rewrite (Hag2 lk Hlk).
    assert (Hs : shape σ2 (Some (length σ)) r' = shape σ (Some l0) r').
    { unfold shape. f_equal. apply (lookup_node_same n0); [done|done|by apply Hc|done]. }
    rewrite Hs.
    destruct (decide (r' = String c2 rest2)) as [->|Hr].
    + by rewrite (decide_True (P := String ch (String c2 rest2) = String ch (String c2 rest2))).
    + by rewrite (decide_False (P := String ch r' = String ch (String c2 rest2)))
        by congruence.
Qed.

Lemma Remove_loop_closed key : ∀ σ cur,
  closed σ → closed (Remove_loop σ cur key).
Proof.
  induction key as [|ch rest IH]; intros σ cur Hc; [done|].
  cbn [Remove_loop].
  destruct (children_ (deref σ cur) !! ch) as [l0|]; [|done].
  destruct rest as [|c2 rest2]; cbn [alloc].
  - assert (closed (σ ++ [mkTrieNode (children_ (deref σ l0))])) as Hc1.
    { apply closed_alloc; [done|]. by apply closed_alt. }
    case_decide; [done|].
    apply closed_set_child; [done|]. rewrite length_app. simpl. lia.
  - apply IH. apply closed_set_child; [|rewrite length_app; simpl; lia].
    apply closed_alloc; [done|]. by apply closed_Clone.
Qed.

(** ** Remove, at the level of the trie *)

Lemma Remove_wf σ t key : wf σ t → wf (Remove σ t key).1 (Remove σ t key).2.
Proof.
  intros [Hc Hr]. unfold Remove.
  assert (Hfast : wf σ (mkTrie (root_ t))) by done.
  destruct key as [|ch rest]; [done|].
  destruct (root_ t) as [r|]; [|done].
  destruct (GetTrieNode σ t (String ch rest)); [|done].
  cbn [alloc fst snd root_]. split.
  - apply Remove_loop_closed, closed_alloc; [done|]. by apply closed_Clone.
  - simpl.
    pose proof (proj1 (Remove_loop_frame (String ch rest)
                         (σ ++ [Clone (deref σ r)]) (length σ))) as Hlen.
    rewrite length_app in Hlen. simpl in Hlen. lia.
Qed.

(** [Remove] leaves every node that existed before as it was. *)
Lemma Remove_agree σ t key : agree (length σ) (Remove σ t key).1 σ.
Proof.
  unfold Remove.
  destruct key as [|ch rest]; [apply agree_refl|].
  destruct (root_ t) as [r|]; [|apply agree_refl].
  destruct (GetTrieNode σ t (String ch rest)); [|apply agree_refl].
  cbn [alloc fst]. intros l Hl.
  rewrite (proj2 (Remove_loop_frame (String ch rest)
                    (σ ++ [Clone (deref σ r)]) (length σ)));
    [by apply deref_alloc_old|rewrite length_app; simpl; lia|lia].
Qed.

(** The shape of the trie [Remove] returns. *)
Lemma Remove_shape σ t key k' :
  wf σ t →
  shape (Remove σ t key).1 (root_ (Remove σ t key).2) k'
  = if decide (k' = key)
    then (if Remove_strips σ t key then Some None else shape σ (root_ t) k')
    else shape σ (root_ t) k'.
Proof.
  intros [Hc Hr].
  assert (Hsame : shape σ (root_ t) k'
    = if decide (k' = key)
      then (if false then Some None else shape σ (root_ t) k')
      else shape σ (root_ t) k') by (by case_decide).
  unfold Remove, Remove_strips.
  destruct key as [|ch rest]; [done|].
  unfold GetTrieNode.
  destruct (root_ t) as [r|]; [|done].
  simpl in Hr.
  destruct (walk σ (Some r) (String ch rest)) as [lk|] eqn:Ew; [|done].
  cbn [alloc fst snd root_].
  set (σ0 := σ ++ [Clone (deref σ r)]).
  assert (Hag : agree (length σ) σ0 σ).
  { intros l Hl. by apply deref_alloc_old. }
  assert (Hoc : old_closed (length σ) σ) by (by apply closed_old_closed).
  assert (Hroot : deref σ0 (length σ) = deref σ r).
  { unfold σ0. rewrite deref_alloc_new. apply Clone_id. }
  assert (Hlk : lk < length σ) by (by eapply walk_old_bound).
  rewrite (Remove_loop_shape (String ch rest) (length σ) σ0 (length σ) lk k');
    [|by eapply old_closed_agree|lia| | |done|].
  2:{ unfold σ0. rewrite length_app. simpl. lia. }
  2:{ rewrite Hroot. by apply Hoc. }
  2:{ rewrite <- Ew. apply (walk_children (length σ)); [done|done|by apply Hoc|].
      by rewrite Hroot. }
  rewrite (Hag lk Hlk).
  assert (Hs : shape σ0 (Some (length σ)) k' = shape σ (Some r) k').
  { unfold shape. f_equal.
    apply (lookup_node_same (length σ)); [done|done|by apply Hoc|done]. }
  rewrite Hs.
  destruct (decide (k' = String ch rest)); [|done].
  destruct (decide (children_ (deref σ lk) = ∅)) as [He|He].
  - by rewrite bool_decide_eq_false_2 by (intros H; by apply H).
  - by rewrite bool_decide_eq_true_2.
Qed.

(** ** Keys *)

Lemma append_nil s : EmptyString +:+ s = s.
Proof. done. Qed.

Lemma append_cons a r s : String a r +:+ s = String a (r +:+ s).
Proof. done. Qed.

Lemma proper_prefix_spec k : ∀ k',
  proper_prefix k k' = true ↔ ∃ c s, k' = k +:+ String c s.
Proof.
  induction k as [|a r IH]; intros [|b r']; simpl.
  - split; [done|]. by intros (c & s & ?).
  - split; [|done]. intros _. by exists b, r'.
  - split; [done|]. by intros (c & s & ?).
  - destruct (decide (a = b)) as [->|Hab].
    + rewrite IH. split; intros (c & s & H); exists c, s;
        rewrite append_cons in *; congruence.
    + split; [done|]. intros (c & s & H). rewrite append_cons in H. congruence.
Qed.

Lemma proper_prefix_irrefl k : proper_prefix k k = false.
Proof. induction k as [|a r IH]; simpl; [done|]. by rewrite decide_True. Qed.

(** A walk that reaches a node has passed through every prefix of the key. *)
Lemma walk_prefix σ p : ∀ cur key,
  proper_prefix p key = true → is_Some (walk σ cur key) → is_Some (walk σ cur p).
Proof.
  induction p as [|a r IH]; intros cur [|b r'] Hp Hw; simpl in *; try done.
  - destruct cur; [done|]. by destruct Hw.
  - destruct (decide (a = b)) as [->|]; [|done].
    destruct cur as [l|]; [|by destruct Hw].
    destruct (children_ (deref σ l) !! b); [|by destruct Hw].
    by eapply IH.
Qed.

(** Below a node without children there is nothing. *)
Lemma walk_leaf σ key : ∀ cur l k',
  walk σ cur key = Some l → children_ (deref σ l) = ∅ →
  proper_prefix key k' = true → walk σ cur k' = None.
Proof.
  induction key as [|a r IH]; intros cur l [|b r'] Hw He Hp; simpl in *; try done.
  - subst cur. by rewrite He, lookup_empty.
  - destruct (decide (a = b)) as [->|]; [|done].
    destruct cur as [l0|]; [|done].
    destruct (children_ (deref σ l0) !! b); [|done].
    by eapply IH.
Qed.

(** A node with a child is passed by the walk of a longer key. *)
Lemma walk_child σ key : ∀ cur l c l',
  walk σ cur key = Some l → children_ (deref σ l) !! c = Some l' →
  walk σ cur (key +:+ String c EmptyString) = Some l'.
Proof.
  induction key as [|a r IH]; intros cur l c l' Hw Hc.
  - rewrite append_nil. simpl in *. subst cur. by rewrite Hc.
  - rewrite append_cons. simpl in *.
    destruct cur as [l0|]; [|done].
    destruct (children_ (deref σ l0) !! a); [|done].
    by eapply IH.
Qed.

Lemma walk_child_inv σ key : ∀ cur c l',
  walk σ cur (key +:+ String c EmptyString) = Some l' →
  ∃ l, walk σ cur key = Some l ∧ children_ (deref σ l) !! c = Some l'.
Proof.
  induction key as [|a r IH]; intros cur c l' Hw.
  - rewrite append_nil in Hw. simpl in *.
    destruct cur as [l0|]; [|done]. exists l0. split; [done|].
    by destruct (children_ (deref σ l0) !! c).
  - rewrite append_cons in Hw. simpl in *.
    destruct cur as [l0|]; [|done].
    destruct (children_ (deref σ l0) !! a); [|done].
    by apply IH.
Qed.

Lemma append_one_ne key c : key +:+ String c EmptyString ≠ key.
Proof.
  intros H. assert (proper_prefix key key = true) as Hp.
  { apply proper_prefix_spec. by exists c, EmptyString. }
  by rewrite proper_prefix_irrefl in Hp.
Qed.

(** ** Get, through the observations *)

Lemma dynamic_cast_value T c (v : denote T) :
  dynamic_cast T (Some (TrieNodeWithValue T c v)) = Some v.
Proof.
  simpl. destruct (decide (T = T)) as [e|]; [|done].
  by rewrite (proof_irrel e eq_refl).
Qed.

Lemma Get_val T σ t key : Get T σ t key = val σ (root_ t) key ≫= cast T.
Proof.
  unfold Get, GetTrieNode, val, lookup_node.
  destruct (walk σ (root_ t) key) as [l|]; [|done]. simpl.
  by destruct (deref σ l).
Qed.

Lemma shape_is_Some σ cur key : is_Some (shape σ cur key) ↔ is_Some (walk σ cur key).
Proof. unfold shape, lookup_node. rewrite !fmap_is_Some. done. Qed.

Lemma path_walk σ key : ∀ r l, path σ r key l ↔ walk σ (Some r) key = Some l.
Proof.
  induction key as [|c rest IH]; intros r l; simpl.
  - split; [by inversion 1|]. intros [= ->]. constructor.
  - split.
    + inversion 1 as [|? ? ? l' ? Hc Hp]; subst. rewrite Hc. by apply IH.
    + destruct (children_ (deref σ r) !! c) as [l'|] eqn:E; [|done].
      intros Hw. econstructor; [done|]. by apply IH.
Qed.

Lemma Put_on_path T σ t key (v : denote T) :
  key ≠ EmptyString →
  ∃ l, GetTrieNode (Put T σ t key v).1 (Put T σ t key v).2 key = Some l
       ∧ deref (Put T σ t key v).1 l = TrieNodeWithValue T ∅ v.
Proof.
  intros Hne. destruct key as [|ch rest]; [done|].
  unfold Put, GetTrieNode. cbn [alloc fst snd root_].
  apply Put_loop_on_path; [done|]. rewrite length_app. simpl. lia.
Qed.

(** ** Properties of Put *)

(** C3. Round trip: for every trie, every non-empty key [key] and every value
    [v] of type [T], [Get<T>(key)] on the trie [Put(key, v)] returns is [v]. *)
Theorem Put_Get_roundtrip T σ t key (v : denote T) :
  key ≠ EmptyString →
  Get T (Put T σ t key v).1 (Put T σ t key v).2 key = Some v.
Proof.
  intros Hne. destruct (Put_on_path T σ t key v Hne) as (l & Hw & Hd).
  unfold Get. rewrite Hw. simpl. rewrite Hd. apply (dynamic_cast_value T ∅ v).
Qed.

Lemma Put_Get_roundtrip_witness :
  "ab" ≠ EmptyString ∧
  Get TUint64 (Put TUint64 sample.1 sample.2 "ab" 7%Z).1
              (Put TUint64 sample.1 sample.2 "ab" 7%Z).2 "ab" = Some 7%Z.
Proof.
  split; [done|]. apply (Put_Get_roundtrip TUint64 sample.1 sample.2 "ab" 7%Z). done.
Defined.

(** C8. The node [Put] builds at the last symbol is a fresh value node
    without the children of the node it replaces: for a non-empty [key], no
    key [k'] that properly extends [key] is retrievable after [Put(key, v)],
    at any type. *)
Theorem Put_discards_descendants T σ t key (v : denote T) T' k' :
  key ≠ EmptyString → proper_prefix key k' = true →
  Get T' (Put T σ t key v).1 (Put T σ t key v).2 k' = None.
Proof.
  intros Hne Hp. destruct (Put_on_path T σ t key v Hne) as (l & Hw & Hd).
  unfold Get, GetTrieNode in *.
  rewrite (walk_leaf _ key _ l k'); [done|done| |done]. by rewrite Hd.
Qed.

Lemma Put_discards_descendants_witness :
  "a" ≠ EmptyString ∧ proper_prefix "a" "ab" = true ∧
  Get TString sample.1 sample.2 "ab" = Some "x" ∧
  Get TString (Put TUint32 sample.1 sample.2 "a" 5%Z).1
              (Put TUint32 sample.1 sample.2 "a" 5%Z).2 "ab" = None.
Proof.
  split; [done|]. split; [reflexivity|]. split; [by vm_compute|].
  apply (Put_discards_descendants TUint32 sample.1 sample.2 "a" 5%Z TString "ab");
    [done|reflexivity].
Defined.

(** C10. Frame of [Put]: for a well-formed trie and a non-empty [key], every
    key [k'] that differs from [key] and that [key] is not a proper prefix of
    is retrieved after [Put(key, v)] as it was before, at every type.  The
    proper prefixes of [key] are such keys. *)
Theorem Put_frame T σ t key (v : denote T) T' k' :
  wf σ t → key ≠ EmptyString → k' ≠ key → proper_prefix key k' = false →
  Get T' (Put T σ t key v).1 (Put T σ t key v).2 k' = Get T' σ t k'.
Proof.
  intros Hwf Hne Hk Hp. rewrite !Get_val, Put_val by done.
  by rewrite decide_False, Hp by done.
Qed.

Lemma Put_frame_witness :
  wf sample.1 sample.2 ∧ "ab" ≠ EmptyString ∧ "a" ≠ "ab" ∧
  proper_prefix "ab" "a" = false ∧
  Get TUint32 (Put TUint64 sample.1 sample.2 "ab" 7%Z).1
              (Put TUint64 sample.1 sample.2 "ab" 7%Z).2 "a"
  = Get TUint32 sample.1 sample.2 "a" ∧
  Get TUint32 sample.1 sample.2 "a" = Some 1%Z.
Proof.
  assert (Hwf : wf sample.1 sample.2) by (apply (bool_decide_unpack (wf sample.1 sample.2)); vm_compute; exact I).
  split; [exact Hwf|]. split; [done|]. split; [done|]. split; [reflexivity|].
  split; [|by vm_compute].
  apply (Put_frame TUint64 sample.1 sample.2 "ab" 7%Z TUint32 "a");
    [exact Hwf|done|done|reflexivity].
Defined.

(** C4. Persistence: after [t2 = t1.Put(key, v)] the receiver [t1] is
    observed as before, over the store [Put] has extended: every [Get], at
    every key and type, returns what it returned, and the shape of [t1] is
    the same at every key. *)
Theorem Put_persistent T σ t key (v : denote T) :
  wf σ t →
  (∀ T' k', Get T' (Put T σ t key v).1 t k' = Get T' σ t k') ∧
  (∀ k', shape (Put T σ t key v).1 (root_ t) k' = shape σ (root_ t) k').
Proof.
  intros [Hc Hr].
  assert (Hn : ∀ k', lookup_node (Put T σ t key v).1 (root_ t) k'
                     = lookup_node σ (root_ t) k').
  { intros k'. destruct (root_ t) as [r|].
    - apply (lookup_node_old (length σ));
        [by apply closed_old_closed|apply Put_agree|done].
    - unfold lookup_node. by rewrite !walk_None. }
  split.
  - intros T' k'. unfold Get, GetTrieNode. exact (f_equal (dynamic_cast T') (Hn k')).
  - intros k'. unfold shape. by rewrite Hn.
Qed.

Lemma Put_persistent_witness :
  wf sample.1 sample.2 ∧
  Get TString (Put TUint32 sample.1 sample.2 "a" 5%Z).1 sample.2 "ab" = Some "x" ∧
  Get TString (Put TUint32 sample.1 sample.2 "a" 5%Z).1
              (Put TUint32 sample.1 sample.2 "a" 5%Z).2 "ab" = None.
Proof.
  assert (Hwf : wf sample.1 sample.2) by (apply (bool_decide_unpack (wf sample.1 sample.2)); vm_compute; exact I).
  split; [exact Hwf|]. split; [|by vm_compute].
  rewrite (proj1 (Put_persistent TUint32 sample.1 sample.2 "a" 5%Z Hwf) TString "ab").
  by vm_compute.
Defined.

(** C6. [Put] with the empty key is a no-op: it returns a trie on the same
    root over the same store, so every [Get], the one at the empty key
    included, returns what it returned before. *)
Theorem Put_empty_key T σ t (v : denote T) :
  Put T σ t EmptyString v = (σ, t) ∧
  ∀ T' k', Get T' (Put T σ t EmptyString v).1 (Put T σ t EmptyString v).2 k'
           = Get T' σ t k'.
Proof. by destruct t. Qed.

(** ** Properties of Get *)

(** C5. [Get<T>(key)] returns a value exactly when the trie has a root, every
    symbol of [key] has a child along the walk from the root, the node the
    walk ends on carries a value, and that value was stored at type [T]; the
    value returned is the stored one.  It returns absent exactly when the walk
    does not reach a node, or reaches a node without a value, or reaches a
    value stored at another type. *)
Theorem Get_spec T σ t key :
  (∀ v, Get T σ t key = Some v ↔
        ∃ r l c, root_ t = Some r ∧ path σ r key l
                 ∧ deref σ l = TrieNodeWithValue T c v) ∧
  (Get T σ t key = None ↔
     (∀ r l, root_ t = Some r → ¬ path σ r key l)
     ∨ (∃ r l c, root_ t = Some r ∧ path σ r key l ∧ deref σ l = mkTrieNode c)
     ∨ (∃ r l T' c (v' : denote T'), root_ t = Some r ∧ path σ r key l
          ∧ deref σ l = TrieNodeWithValue T' c v' ∧ T' ≠ T)).
Proof.
  unfold Get, GetTrieNode. destruct (root_ t) as [r|].
  2:{ rewrite walk_None. simpl. split.
      - intros v. split; [done|]. by intros (r & l & c & ? & _).
      - split; [|done]. intros _. left. by intros r l ?. }
  destruct (walk σ (Some r) key) as [l|] eqn:Ew.
  2:{ simpl. split.
      - intros v. split; [done|]. intros (r' & l & c & [= <-] & Hp & _).
        apply path_walk in Hp. congruence.
      - split; [|done]. intros _. left. intros r' l [= <-] Hp.
        apply path_walk in Hp. congruence. }
  assert (Hl : ∀ r' l', Some r = Some r' → path σ r' key l' → l' = l).
  { intros r' l' [= <-] Hp. apply path_walk in Hp. congruence. }
  apply path_walk in Ew. simpl.
  destruct (deref σ l) as [c|T0 c v0] eqn:Ed; simpl.
  - split.
    + intros v. split; [done|]. intros (r' & l' & c' & Hr & Hp & Hd).
      rewrite (Hl r' l' Hr Hp) in Hd. congruence.
    + split; [|done]. intros _. right. left. by exists r, l, c.
  - destruct (decide (T0 = T)) as [e|Hne].
    + destruct e. simpl. split.
      * intros v. split.
        -- intros [= <-]. by exists r, l, c.
        -- intros (r' & l' & c' & Hr & Hp & Hd).
           rewrite (Hl r' l' Hr Hp), Ed in Hd.
           injection Hd as _ Hv. f_equal.
           by apply (Eqdep_dec.inj_pair2_eq_dec _ ValType_eq_dec) in Hv.
      * split; [done|]. intros [H|[H|H]].
        -- by destruct (H r l eq_refl).
        -- destruct H as (r' & l' & c' & Hr & Hp & Hd).
           rewrite (Hl r' l' Hr Hp) in Hd. congruence.
        -- destruct H as (r' & l' & T' & c' & v' & Hr & Hp & Hd & HT).
           rewrite (Hl r' l' Hr Hp), Ed in Hd. congruence.
    + split.
      * intros v. split; [done|]. intros (r' & l' & c' & Hr & Hp & Hd).
        rewrite (Hl r' l' Hr Hp), Ed in Hd. congruence.
      * split; [|done]. intros _. right. right. by exists r, l, T0, c, v0.
Qed.

(** ** Properties of Remove *)

(** C7, as the code has it.  [Remove] takes its no-op path, returning the
    receiver's own root over an unchanged store, exactly when the key is
    empty, or the trie has no root, or [GetTrieNode] finds no node at the
    key; in these cases the trie it returns has the structure of the
    receiver. *)
Theorem Remove_noop_iff σ t key :
  (Remove σ t key = (σ, t) ↔
   key = EmptyString ∨ root_ t = None ∨ GetTrieNode σ t key = None) ∧
  (key = EmptyString ∨ root_ t = None ∨ GetTrieNode σ t key = None →
   trie_equiv (Remove σ t key) (σ, t)).
Proof.
  assert (Hiff : Remove σ t key = (σ, t) ↔
            key = EmptyString ∨ root_ t = None ∨ GetTrieNode σ t key = None).
  2:{ split; [exact Hiff|]. intros H. apply Hiff in H. by rewrite H. }
  unfold Remove. destruct t as [root]. cbn [root_]. split.
  - destruct key as [|ch rest]; [by left|].
    destruct root as [r|]; [|by right; left].
    destruct (GetTrieNode σ (mkTrie (Some r)) (String ch rest)); [|by right; right].
    cbn [alloc].
    pose proof (proj1 (Remove_loop_frame (String ch rest)
                         (σ ++ [Clone (deref σ r)]) (length σ))) as Hlen.
    set (σ1 := Remove_loop _ _ _) in *. intros Hσ.
    apply (f_equal fst) in Hσ. cbn [fst] in Hσ.
    rewrite Hσ, length_app in Hlen. cbn [length] in Hlen. lia.
  - intros [Hk | [Hr | Hg]].
    + by subst key.
    + subst root. by destruct key.
    + destruct key; [done|]. destruct root; [|done]. by rewrite Hg.
Qed.

(** C7, as the claim states it, fails: a structurally equal trie is also
    returned outside the three cases.  In the trie that holds ["ab"] alone
    the node at ["a"] has a child and no value; [Remove("a")] finds it,
    copies the path and attaches a replacement with the same children, and
    the trie it returns has the structure of the receiver although the key is
    not empty, the root exists and [GetTrieNode] finds a node. *)
Lemma Remove_equiv_beyond_noop :
  "a" ≠ EmptyString ∧ root_ sample_ab.2 ≠ None ∧
  GetTrieNode sample_ab.1 sample_ab.2 "a" ≠ None ∧
  trie_equiv (Remove sample_ab.1 sample_ab.2 "a") (sample_ab.1, sample_ab.2) ∧
  ¬ (trie_equiv (Remove sample_ab.1 sample_ab.2 "a") (sample_ab.1, sample_ab.2) →
     "a" = EmptyString ∨ root_ sample_ab.2 = None
     ∨ GetTrieNode sample_ab.1 sample_ab.2 "a" = None).
Proof.
  assert (Hwf : wf sample_ab.1 sample_ab.2)
    by (apply (bool_decide_unpack (wf sample_ab.1 sample_ab.2)); vm_compute; exact I).
  assert (He : trie_equiv (Remove sample_ab.1 sample_ab.2 "a") (sample_ab.1, sample_ab.2)).
  { intros k'. cbn [fst snd]. rewrite Remove_shape by done.
    destruct (decide (k' = "a")) as [->|]; [|done]. by vm_compute. }
  split; [done|]. split; [by vm_compute|]. split; [by vm_compute|].
  split; [exact He|].
  intros H. destruct (H He) as [H1|[H1|H1]]; [done|by vm_compute in H1..].
Qed.

Lemma Remove_strips_spec σ t key :
  Remove_strips σ t key = true ↔
  key ≠ EmptyString ∧ ∃ c, is_Some (shape σ (root_ t) (key +:+ String c EmptyString)).
Proof.
  unfold Remove_strips, GetTrieNode. split.
  - destruct key as [|ch rest]; [done|].
    destruct (walk σ (root_ t) (String ch rest)) as [l|] eqn:Ew; [|done].
    intros Hb%bool_decide_eq_true_1. split; [done|].
    destruct (map_choose _ Hb) as (c & l' & Hc). exists c.
    apply shape_is_Some. rewrite (walk_child _ _ _ l c l'); done.
  - intros [Hne (c & Hs)]. apply shape_is_Some in Hs. destruct Hs as [l' Hw].
    apply walk_child_inv in Hw. destruct Hw as (l & Hw & Hc).
    destruct key as [|ch rest]; [done|]. rewrite Hw.
    apply bool_decide_eq_true_2. intros He. by rewrite He, lookup_empty in Hc.
Qed.

(** C9. [Remove] is idempotent: on a well-formed trie, removing [key] a
    second time returns a trie of the same structure as the first removal,
    node for node and value for value. *)
Theorem Remove_idempotent σ t key :
  wf σ t →
  trie_equiv (Remove (Remove σ t key).1 (Remove σ t key).2 key) (Remove σ t key).
Proof.
  intros Hwf k'. pose proof (Remove_wf σ t key Hwf) as Hwf1.
  rewrite (Remove_shape (Remove σ t key).1) by done.
  destruct (decide (k' = key)) as [->|Hk]; [|done].
  destruct (Remove_strips (Remove σ t key).1 (Remove σ t key).2 key) eqn:Es; [|done].
  apply Remove_strips_spec in Es. destruct Es as [Hne (c & Hs)].
  rewrite Remove_shape in Hs by done.
  rewrite decide_False in Hs by apply append_one_ne.
  rewrite Remove_shape by done. rewrite decide_True by done.
  rewrite (proj2 (Remove_strips_spec σ t key)); [done|]. split; [done|]. by exists c.
Qed.

Lemma Remove_idempotent_witness :
  wf sample.1 sample.2 ∧
  trie_equiv (Remove (Remove sample.1 sample.2 "a").1 (Remove sample.1 sample.2 "a").2 "a")
             (Remove sample.1 sample.2 "a") ∧
  Get TUint32 sample.1 sample.2 "a" = Some 1%Z ∧
  Get TUint32 (Remove sample.1 sample.2 "a").1 (Remove sample.1 sample.2 "a").2 "a" = None.
Proof.
  assert (Hwf : wf sample.1 sample.2)
    by (apply (bool_decide_unpack (wf sample.1 sample.2)); vm_compute; exact I).
  split; [exact Hwf|]. split; [|split; by vm_compute].
  apply (Remove_idempotent sample.1 sample.2 "a" Hwf).
Defined.

(** What [Remove] does to a key that [Put] has just stored: the node [Put]
    built has no children, the replacement is therefore not attached, and the
    entry of the parent still leads to the node that carries the value. *)
Lemma Put_Remove_Get T σ t key (v : denote T) :
  wf σ t → key ≠ EmptyString →
  Get T (Remove (Put T σ t key v).1 (Put T σ t key v).2 key).1
        (Remove (Put T σ t key v).1 (Put T σ t key v).2 key).2 key = Some v.
Proof.
  intros Hwf Hne. pose proof (Put_wf T σ t key v Hwf) as Hwf1.
  destruct (Put_on_path T σ t key v Hne) as (l & Hw & Hd).
  rewrite Get_val, val_shape, Remove_shape by done.
  rewrite decide_True by done.
  assert (Remove_strips (Put T σ t key v).1 (Put T σ t key v).2 key = false) as ->.
  { unfold Remove_strips. destruct key; [done|]. rewrite Hw, Hd. simpl.
    apply bool_decide_eq_false_2. by intros H. }
  rewrite <- val_shape, <- Get_val.
  unfold Get. rewrite Hw. simpl. rewrite Hd. apply (dynamic_cast_value T ∅ v).
Qed.

(** C1. The claim is that a key is absent once it has been put and removed.
    On the empty trie, [Put("a", 1)] followed by [Remove("a")] leaves the
    value retrievable: [Get<uint32_t>("a")] still returns 1. *)
Theorem Put_Remove_Get_present :
  let s := Put TUint32 [] empty_trie "a" 1%Z in
  let s' := Remove s.1 s.2 "a" in
  Get TUint32 s'.1 s'.2 "a" = Some 1%Z.
Proof. by vm_compute. Qed.





(** ** Further lemmas on walks and on the loops *)

Lemma walk_app σ p : ∀ cur s, walk σ cur (p +:+ s) = walk σ (walk σ cur p) s.
Proof.
  induction p as [|a r IH]; intros cur s.
  - by rewrite append_nil.
  - rewrite append_cons. simpl. destruct cur as [l|]; [|by rewrite walk_None].
    destruct (children_ (deref σ l) !! a); [apply IH|by rewrite walk_None].
Qed.

(** A snapshot whose root is allocated looks the same in every store that
    agrees with its own on the allocated locations. *)
Lemma lookup_node_snapshot σ σ' t0 key :
  wf σ t0 → agree (length σ) σ' σ →
  lookup_node σ' (root_ t0) key = lookup_node σ (root_ t0) key.
Proof.
  intros [Hc Hr] Hag. destruct (root_ t0) as [r|].
  - apply (lookup_node_old (length σ)); [by apply closed_old_closed|done|done].
  - unfold lookup_node. by rewrite !walk_None.
Qed.

Lemma Put_loop_length T key : ∀ σ cur (v : denote T),
  length (Put_loop T σ cur key v) = length σ + String.length key.
Proof.
  induction key as [|ch rest IH]; intros σ cur v; [simpl; lia|].
  cbn [Put_loop alloc String.length]. rewrite IH, length_set_child, length_app.
  cbn [length]. lia.
Qed.

Lemma Remove_loop_length key : ∀ n0 σ cur lk,
  old_closed n0 σ → n0 ≤ cur → cur < length σ →
  map_Forall (λ (_ : ascii) (l' : loc), l' < n0) (children_ (deref σ cur)) →
  walk σ (Some cur) key = Some lk →
  length (Remove_loop σ cur key) = length σ + String.length key.
Proof.
  induction key as [|ch rest IH]; intros n0 σ cur lk Hc H0 Hcur Hch Hwalk;
    [simpl; lia|].
  cbn [walk] in Hwalk. cbn [Remove_loop String.length].
  destruct (children_ (deref σ cur) !! ch) as [l0|] eqn:E; [|done].
  assert (Hl0 : l0 < n0) by exact (Hch ch l0 E).
  destruct rest as [|c2 rest2].
  - cbn [alloc String.length]. case_decide.
    + rewrite length_app. cbn [length]. lia.
    + rewrite length_set_child, length_app. cbn [length]. lia.
  - cbn [alloc].
    set (σ2 := set_child (σ ++ [Clone (deref σ l0)]) cur ch (length σ)).
    assert (Hl2 : length σ2 = S (length σ)).
    { unfold σ2. rewrite length_set_child, length_app. simpl. lia. }
    assert (Hnew : deref σ2 (length σ) = deref σ l0).
    { unfold σ2. rewrite deref_set_child_ne by lia.
      rewrite deref_alloc_new. apply Clone_id. }
    assert (Hag2 : agree n0 σ2 σ).
    { intros l Hl. unfold σ2. rewrite deref_set_child_ne by lia.
      apply deref_alloc_old. lia. }
    rewrite (IH n0 σ2 (length σ) lk); [lia|by eapply old_closed_agree|lia|lia| |].
    + rewrite Hnew. by apply Hc.
    + rewrite <- Hwalk. apply (walk_children n0); [done|done|by apply Hc|].
      by rewrite Hnew.
Qed.

(** Away from the path of [key], the loop of [Put] leaves the pointers as
    they were: a key that leaves the path leads to the very node it led to. *)
Lemma Put_loop_walk_off_path T key : ∀ n0 σ cur (v : denote T) k',
  old_closed n0 σ → n0 ≤ cur → cur < length σ →
  map_Forall (λ (_ : ascii) (l' : loc), l' < n0) (children_ (deref σ cur)) →
  k' ≠ key → proper_prefix key k' = false → proper_prefix k' key = false →
  walk (Put_loop T σ cur key v) (Some cur) k' = walk σ (Some cur) k'.
Proof.
  induction key as [|ch rest IH]; intros n0 σ cur v k' Hc H0 Hcur Hch Hk Hp1 Hp2.
  { by destruct k'. }
  destruct k' as [|c' r']; [done|].
  pose proof (Put_loop_agree T (String ch rest) n0 σ cur v H0 Hcur) as Hag.
  cbn [walk]. rewrite Put_loop_cur, children_with_child by done.
  cbn [proper_prefix] in Hp1, Hp2.
  destruct (decide (c' = ch)) as [->|Hcc].
  2:{ rewrite lookup_insert_ne by done.
      destruct (children_ (deref σ cur) !! c') as [l'|] eqn:E; [|done].
      apply (walk_old n0); [done..|]. exact (Hch c' l' E). }
  rewrite decide_True in Hp1 by done.
  rewrite lookup_insert_eq.
  cbn [Put_loop alloc].
  set (node := match rest with EmptyString => _ | _ => _ end).
  set (σ2 := set_child (σ ++ [node]) cur ch (length σ)).
  assert (Hnew : deref σ2 (length σ) = node).
  { unfold σ2. rewrite deref_set_child_ne by lia. apply deref_alloc_new. }
  assert (Hag2 : agree n0 σ2 σ).
  { intros l Hl. unfold σ2. rewrite deref_set_child_ne by lia.
    apply deref_alloc_old. lia. }
  assert (Hl2 : length σ2 = S (length σ)).
  { unfold σ2. rewrite length_set_child, length_app. simpl. lia. }
  destruct rest as [|c2 rest2]; [by destruct r'|].
  destruct r' as [|c3 r3]; [done|].
  assert (Hnode : map_Forall (λ (_ : ascii) (l' : loc), l' < n0) (children_ node)).
  { subst node. destruct (children_ (deref σ cur) !! ch) as [l|] eqn:E.
    - rewrite Clone_id. apply Hc. exact (Hch ch l E).
    - apply map_Forall_empty. }
  rewrite (IH n0 σ2 (length σ) v (String c3 r3));
    [|by eapply old_closed_agree|lia|lia|by rewrite Hnew|congruence|done|done].
  subst node. destruct (children_ (deref σ cur) !! ch) as [l|] eqn:E.
  - apply (walk_children n0); [done|done|apply Hc; exact (Hch ch l E)|].
    by rewrite Hnew, Clone_id.
  - simpl. by rewrite Hnew.
Qed.

(** ** Further properties of GetTrieNode and Get *)

(** X1. On the empty trie, whatever the store holds, [GetTrieNode] finds no
    node and [Get] no value, at every key and type. *)
Theorem Get_empty_trie T σ key :
  GetTrieNode σ empty_trie key = None ∧ Get T σ empty_trie key = None.
Proof.
  unfold Get, GetTrieNode. cbn [empty_trie root_]. by rewrite walk_None.
Qed.

(** X2. A missing segment ends the walk for good: when [GetTrieNode] finds no
    node at [p], it finds none at any key that starts with [p], and [Get]
    returns absent there at every type. *)
Theorem GetTrieNode_missing_prefix T σ t p s :
  GetTrieNode σ t p = None →
  GetTrieNode σ t (p +:+ s) = None ∧ Get T σ t (p +:+ s) = None.
Proof.
  unfold Get, GetTrieNode. intros Hp. by rewrite walk_app, Hp, walk_None.
Qed.

Lemma GetTrieNode_missing_prefix_witness :
  GetTrieNode sample.1 sample.2 "b" = None ∧
  GetTrieNode sample.1 sample.2 ("b" +:+ "cd") = None ∧
  Get TString sample.1 sample.2 ("b" +:+ "cd") = None.
Proof.
  assert (Hp : GetTrieNode sample.1 sample.2 "b" = None) by (by vm_compute).
  split; [exact Hp|].
  exact (GetTrieNode_missing_prefix TString sample.1 sample.2 "b" "cd" Hp).
Defined.

(** ** Further properties of Put *)

(** X3. A value is found only at the type it was stored at: after
    [Put<T>(key, v)] with a non-empty key, [Get<T'>(key)] is absent for every
    other type [T']. *)
Theorem Put_Get_type_mismatch T T' σ t key (v : denote T) :
  key ≠ EmptyString → T' ≠ T →
  Get T' (Put T σ t key v).1 (Put T σ t key v).2 key = None.
Proof.
  intros Hne HT. destruct (Put_on_path T σ t key v Hne) as (l & Hw & Hd).
  unfold Get. rewrite Hw. cbn [fmap option_fmap option_map]. rewrite Hd.
  unfold dynamic_cast. destruct (decide (T = T')); [congruence|done].
Qed.

Lemma Put_Get_type_mismatch_witness :
  "ab" ≠ EmptyString ∧ TString ≠ TUint32 ∧
  Get TString (Put TUint32 sample.1 sample.2 "ab" 7%Z).1
              (Put TUint32 sample.1 sample.2 "ab" 7%Z).2 "ab" = None.
Proof.
  split; [done|]. split; [done|].
  apply (Put_Get_type_mismatch TUint32 TString sample.1 sample.2 "ab" 7%Z); done.
Defined.

(** X4. The last write wins: on a well-formed trie, [Put(key, v1)] followed by
    [Put(key, v2)] is observed, at every key and type, as [Put(key, v2)]
    alone, also when the two values have different types. *)
Theorem Put_Put_same_key T1 T2 σ t key (v1 : denote T1) (v2 : denote T2) T' k' :
  wf σ t → key ≠ EmptyString →
  Get T' (Put T2 (Put T1 σ t key v1).1 (Put T1 σ t key v1).2 key v2).1
         (Put T2 (Put T1 σ t key v1).1 (Put T1 σ t key v1).2 key v2).2 k'
  = Get T' (Put T2 σ t key v2).1 (Put T2 σ t key v2).2 k'.
Proof.
  intros Hwf Hne. pose proof (Put_wf T1 σ t key v1 Hwf) as Hwf1.
  rewrite !Get_val. rewrite (Put_val T2 (Put T1 σ t key v1).1) by done.
  rewrite (Put_val T2 σ) by done. rewrite Put_val by done.
  destruct (decide (k' = key)); [done|].
  by destruct (proper_prefix key k').
Qed.

Lemma Put_Put_same_key_witness :
  wf sample.1 sample.2 ∧ "a" ≠ EmptyString ∧
  Get TString
    (Put TString (Put TUint64 sample.1 sample.2 "a" 3%Z).1
                 (Put TUint64 sample.1 sample.2 "a" 3%Z).2 "a" "y").1
    (Put TString (Put TUint64 sample.1 sample.2 "a" 3%Z).1
                 (Put TUint64 sample.1 sample.2 "a" 3%Z).2 "a" "y").2 "a"
  = Get TString (Put TString sample.1 sample.2 "a" "y").1
                (Put TString sample.1 sample.2 "a" "y").2 "a".
Proof.
  assert (Hwf : wf sample.1 sample.2)
    by (apply (bool_decide_unpack (wf sample.1 sample.2)); vm_compute; exact I).
  split; [exact Hwf|]. split; [done|].
  apply (Put_Put_same_key TUint64 TString sample.1 sample.2 "a" 3%Z "y" TString "a");
    [exact Hwf|done].
Defined.

(** X5. Two [Put]s commute when neither key is a prefix of the other: on a
    well-formed trie, for two distinct non-empty keys of which neither
    properly extends the other, both orders give the same [Get] at every key
    and type. *)
Theorem Put_Put_commute T1 T2 σ t k1 k2 (v1 : denote T1) (v2 : denote T2) T' k' :
  wf σ t → k1 ≠ EmptyString → k2 ≠ EmptyString → k1 ≠ k2 →
  proper_prefix k1 k2 = false → proper_prefix k2 k1 = false →
  Get T' (Put T2 (Put T1 σ t k1 v1).1 (Put T1 σ t k1 v1).2 k2 v2).1
         (Put T2 (Put T1 σ t k1 v1).1 (Put T1 σ t k1 v1).2 k2 v2).2 k'
  = Get T' (Put T1 (Put T2 σ t k2 v2).1 (Put T2 σ t k2 v2).2 k1 v1).1
           (Put T1 (Put T2 σ t k2 v2).1 (Put T2 σ t k2 v2).2 k1 v1).2 k'.
Proof.
  intros Hwf Hn1 Hn2 Hk H12 H21.
  pose proof (Put_wf T1 σ t k1 v1 Hwf) as Hwf1.
  pose proof (Put_wf T2 σ t k2 v2 Hwf) as Hwf2.
  rewrite !Get_val.
  rewrite (Put_val T2 (Put T1 σ t k1 v1).1) by done.
  rewrite (Put_val T1 (Put T2 σ t k2 v2).1) by done.
  rewrite (Put_val T1 σ), (Put_val T2 σ) by done.
  destruct (decide (k' = k2)) as [->|Hk2].
  { rewrite decide_False by congruence. by rewrite H12. }
  destruct (decide (k' = k1)) as [->|Hk1].
  { by rewrite H21. }
  destruct (proper_prefix k2 k'), (proper_prefix k1 k'); done.
Qed.

Lemma Put_Put_commute_witness :
  wf sample.1 sample.2 ∧ "ac" ≠ EmptyString ∧ "b" ≠ EmptyString ∧ "ac" ≠ "b" ∧
  proper_prefix "ac" "b" = false ∧ proper_prefix "b" "ac" = false ∧
  Get TUint32
    (Put TUint64 (Put TUint32 sample.1 sample.2 "ac" 3%Z).1
                 (Put TUint32 sample.1 sample.2 "ac" 3%Z).2 "b" 4%Z).1
    (Put TUint64 (Put TUint32 sample.1 sample.2 "ac" 3%Z).1
                 (Put TUint32 sample.1 sample.2 "ac" 3%Z).2 "b" 4%Z).2 "ac"
  = Get TUint32
    (Put TUint32 (Put TUint64 sample.1 sample.2 "b" 4%Z).1
                 (Put TUint64 sample.1 sample.2 "b" 4%Z).2 "ac" 3%Z).1
    (Put TUint32 (Put TUint64 sample.1 sample.2 "b" 4%Z).1
                 (Put TUint64 sample.1 sample.2 "b" 4%Z).2 "ac" 3%Z).2 "ac".
Proof.
  assert (Hwf : wf sample.1 sample.2)
    by (apply (bool_decide_unpack (wf sample.1 sample.2)); vm_compute; exact I).
  split; [exact Hwf|]. split; [done|]. split; [done|]. split; [done|].
  split; [reflexivity|]. split; [reflexivity|].
  apply (Put_Put_commute TUint32 TUint64 sample.1 sample.2 "ac" "b" 3%Z 4%Z TUint32 "ac");
    [exact Hwf|done|done|done|reflexivity|reflexivity].
Defined.

(** X6. [Put] builds the whole path: after [Put(key, v)] with a non-empty
    key, [GetTrieNode] finds a node at [key] and at every proper prefix of
    [key], the empty key (the root) included. *)
Theorem Put_creates_path T σ t key (v : denote T) p :
  key ≠ EmptyString → p = key ∨ proper_prefix p key = true →
  is_Some (GetTrieNode (Put T σ t key v).1 (Put T σ t key v).2 p).
Proof.
  intros Hne Hp. destruct (Put_on_path T σ t key v Hne) as (l & Hw & _).
  destruct Hp as [->|Hp]; [by rewrite Hw|].
  unfold GetTrieNode in *. apply (walk_prefix _ p _ key Hp). by rewrite Hw.
Qed.

Lemma Put_creates_path_witness :
  "xyz" ≠ EmptyString ∧ proper_prefix "xy" "xyz" = true ∧
  GetTrieNode sample.1 sample.2 "xy" = None ∧
  is_Some (GetTrieNode (Put TUint32 sample.1 sample.2 "xyz" 7%Z).1
                       (Put TUint32 sample.1 sample.2 "xyz" 7%Z).2 "xy").
Proof.
  split; [done|]. split; [reflexivity|]. split; [by vm_compute|].
  apply (Put_creates_path TUint32 sample.1 sample.2 "xyz" 7%Z "xy"); [done|].
  right. reflexivity.
Defined.

(** X7. Structural sharing: [Put] copies the nodes on the path of [key] and
    no other.  On a well-formed trie, a key that leaves the path of [key]
    (it is not [key], does not extend [key] and is not a prefix of [key])
    leads after [Put] to the very node (the same location) it led to
    before. *)
Theorem Put_shares_off_path T σ t key (v : denote T) k' :
  wf σ t → k' ≠ key →
  proper_prefix key k' = false → proper_prefix k' key = false →
  GetTrieNode (Put T σ t key v).1 (Put T σ t key v).2 k' = GetTrieNode σ t k'.
Proof.
  intros [Hc Hr] Hk Hp1 Hp2.
  destruct key as [|ch rest]; [by destruct k'|].
  destruct k' as [|c' r']; [done|].
  unfold Put, GetTrieNode. cbn [alloc fst snd root_].
  set (node := match root_ t with Some r => _ | None => _ end).
  assert (Hag : agree (length σ) (σ ++ [node]) σ).
  { intros l Hl. by apply deref_alloc_old. }
  assert (Hoc : old_closed (length σ) σ) by (by apply closed_old_closed).
  rewrite (Put_loop_walk_off_path T (String ch rest) (length σ));
    [|by eapply old_closed_agree|lia|rewrite length_app; simpl; lia| |done|done|done].
  2:{ rewrite deref_alloc_new. subst node.
      destruct (root_ t); [by apply closed_Clone|apply map_Forall_empty]. }
  subst node. destruct (root_ t) as [r|].
  - simpl in Hr. apply (walk_children (length σ)); [done|done|by apply Hoc|].
    by rewrite deref_alloc_new, Clone_id.
  - simpl. by rewrite deref_alloc_new.
Qed.

Lemma Put_shares_off_path_witness :
  wf sample.1 sample.2 ∧ "ab" ≠ "ac" ∧
  proper_prefix "ac" "ab" = false ∧ proper_prefix "ab" "ac" = false ∧
  GetTrieNode (Put TUint32 sample.1 sample.2 "ac" 7%Z).1
              (Put TUint32 sample.1 sample.2 "ac" 7%Z).2 "ab"
  = GetTrieNode sample.1 sample.2 "ab" ∧
  is_Some (GetTrieNode sample.1 sample.2 "ab").
Proof.
  assert (Hwf : wf sample.1 sample.2)
    by (apply (bool_decide_unpack (wf sample.1 sample.2)); vm_compute; exact I).
  split; [exact Hwf|]. split; [done|]. split; [reflexivity|]. split; [reflexivity|].
  split; [|vm_compute; by eexists].
  apply (Put_shares_off_path TUint32 sample.1 sample.2 "ac" 7%Z "ab");
    [exact Hwf|done|reflexivity|reflexivity].
Defined.

(** X8. [Put] with a non-empty key constructs one node for the root and one
    for each symbol of the key: the store grows by the length of the key plus
    one, whatever the trie held. *)
Theorem Put_allocates T σ t key (v : denote T) :
  key ≠ EmptyString →
  length (Put T σ t key v).1 = length σ + String.length key + 1.
Proof.
  intros Hne. destruct key as [|ch rest]; [done|].
  unfold Put. cbn [alloc fst]. rewrite Put_loop_length, length_app. simpl. lia.
Qed.

Lemma Put_allocates_witness :
  "abc" ≠ EmptyString ∧
  length (Put TUint32 sample.1 sample.2 "abc" 7%Z).1 = length sample.1 + 3 + 1.
Proof.
  split; [done|]. exact (Put_allocates TUint32 sample.1 sample.2 "abc" 7%Z ltac:(done)).
Defined.

(** X9. [Put] keeps the store well formed: the trie it returns is well
    formed, and so is every snapshot that was (its root is still allocated and
    no pointer dangles). *)
Theorem Put_keeps_wf T σ t key (v : denote T) :
  wf σ t →
  wf (Put T σ t key v).1 (Put T σ t key v).2 ∧
  ∀ t0, wf σ t0 → wf (Put T σ t key v).1 t0.
Proof.
  intros Hwf. pose proof (Put_wf T σ t key v Hwf) as Hwf1.
  split; [done|]. intros t0 [_ Hr0]. split; [apply Hwf1|].
  destruct (root_ t0) as [r0|]; [|done]. simpl in *.
  destruct key as [|ch rest]; [done|].
  unfold Put. cbn [alloc fst]. rewrite Put_loop_length, length_app. simpl. lia.
Qed.

Lemma Put_keeps_wf_witness :
  wf sample.1 sample.2 ∧
  wf (Put TUint32 sample.1 sample.2 "ac" 7%Z).1 (Put TUint32 sample.1 sample.2 "ac" 7%Z).2 ∧
  wf (Put TUint32 sample.1 sample.2 "ac" 7%Z).1 sample.2.
Proof.
  assert (Hwf : wf sample.1 sample.2)
    by (apply (bool_decide_unpack (wf sample.1 sample.2)); vm_compute; exact I).
  split; [exact Hwf|].
  destruct (Put_keeps_wf TUint32 sample.1 sample.2 "ac" 7%Z Hwf) as [H1 H2].
  split; [exact H1|]. exact (H2 sample.2 Hwf).
Defined.

(** X10. [Put] leaves every snapshot of the store as it was, not only the
    receiver: for every well-formed trie [t0] over the store, every [Get] on
    [t0] and the node [GetTrieNode] finds for [t0] are the same after a [Put]
    on any trie [t]. *)
Theorem Put_keeps_snapshots T σ t t0 key (v : denote T) T' k' :
  wf σ t0 →
  GetTrieNode (Put T σ t key v).1 t0 k' = GetTrieNode σ t0 k' ∧
  Get T' (Put T σ t key v).1 t0 k' = Get T' σ t0 k'.
Proof.
  intros Hwf0.
  pose proof (lookup_node_snapshot σ _ t0 k' Hwf0 (Put_agree T σ t key v)) as Hn.
  split; [|exact (f_equal (dynamic_cast T') Hn)].
  destruct Hwf0 as [Hc Hr]. unfold GetTrieNode.
  destruct (root_ t0) as [r|]; [|by rewrite !walk_None].
  apply (walk_old (length σ)); [by apply closed_old_closed|apply Put_agree|done].
Qed.

Lemma Put_keeps_snapshots_witness :
  wf (Put TUint32 [] empty_trie "a" 1%Z).1 (Put TUint32 [] empty_trie "a" 1%Z).2 ∧
  Get TUint32 (Put TString (Put TUint32 [] empty_trie "a" 1%Z).1 empty_trie "a" "z").1
              (Put TUint32 [] empty_trie "a" 1%Z).2 "a"
  = Get TUint32 (Put TUint32 [] empty_trie "a" 1%Z).1
                (Put TUint32 [] empty_trie "a" 1%Z).2 "a" ∧
  Get TUint32 (Put TUint32 [] empty_trie "a" 1%Z).1
              (Put TUint32 [] empty_trie "a" 1%Z).2 "a" = Some 1%Z.
Proof.
  assert (Hwf : wf (Put TUint32 [] empty_trie "a" 1%Z).1 (Put TUint32 [] empty_trie "a" 1%Z).2).
  { apply (bool_decide_unpack (wf _ _)). vm_compute. exact I. }
  split; [exact Hwf|]. split; [|by vm_compute].
  exact (proj2 (Put_keeps_snapshots TString (Put TUint32 [] empty_trie "a" 1%Z).1 empty_trie
                  (Put TUint32 [] empty_trie "a" 1%Z).2 "a" "z" TUint32 "a" Hwf)).
Defined.

(** ** Further properties of Remove *)

(** X11. [Remove] leaves every snapshot of the store as it was: for every
    well-formed trie [t0] over the store, the receiver included, every [Get]
    on [t0] and the node [GetTrieNode] finds for [t0] are the same after a
    [Remove] on any trie [t]. *)
Theorem Remove_keeps_snapshots σ t t0 key T' k' :
  wf σ t0 →
  GetTrieNode (Remove σ t key).1 t0 k' = GetTrieNode σ t0 k' ∧
  Get T' (Remove σ t key).1 t0 k' = Get T' σ t0 k'.
Proof.
  intros Hwf0.
  pose proof (lookup_node_snapshot σ _ t0 k' Hwf0 (Remove_agree σ t key)) as Hn.
  split; [|exact (f_equal (dynamic_cast T') Hn)].
  destruct Hwf0 as [Hc Hr]. unfold GetTrieNode.
  destruct (root_ t0) as [r|]; [|by rewrite !walk_None].
  apply (walk_old (length σ)); [by apply closed_old_closed|apply Remove_agree|done].
Qed.

Lemma Remove_keeps_snapshots_witness :
  wf sample.1 sample.2 ∧
  Get TUint32 (Remove sample.1 sample.2 "a").1 sample.2 "a"
  = Get TUint32 sample.1 sample.2 "a" ∧
  Get TUint32 sample.1 sample.2 "a" = Some 1%Z ∧
  Get TUint32 (Remove sample.1 sample.2 "a").1 (Remove sample.1 sample.2 "a").2 "a" = None.
Proof.
  assert (Hwf : wf sample.1 sample.2)
    by (apply (bool_decide_unpack (wf sample.1 sample.2)); vm_compute; exact I).
  split; [exact Hwf|]. split; [|split; by vm_compute].
  exact (proj2 (Remove_keeps_snapshots sample.1 sample.2 sample.2 "a" TUint32 "a" Hwf)).
Defined.

(** X12. Frame of [Remove]: on a well-formed trie, [Remove(key)] changes no
    other key; every key that differs from [key] is retrieved afterwards as
    it was before, at every type, and leads to a node exactly when it did. *)
Theorem Remove_frame σ t key T' k' :
  wf σ t → k' ≠ key →
  Get T' (Remove σ t key).1 (Remove σ t key).2 k' = Get T' σ t k' ∧
  shape (Remove σ t key).1 (root_ (Remove σ t key).2) k' = shape σ (root_ t) k'.
Proof.
  intros Hwf Hk.
  assert (Hs : shape (Remove σ t key).1 (root_ (Remove σ t key).2) k'
               = shape σ (root_ t) k').
  { rewrite Remove_shape by done. by rewrite decide_False. }
  split; [|done]. by rewrite !Get_val, !val_shape, Hs.
Qed.

Lemma Remove_frame_witness :
  wf sample.1 sample.2 ∧ "ab" ≠ "a" ∧
  Get TString (Remove sample.1 sample.2 "a").1 (Remove sample.1 sample.2 "a").2 "ab"
  = Get TString sample.1 sample.2 "ab" ∧
  Get TString sample.1 sample.2 "ab" = Some "x".
Proof.
  assert (Hwf : wf sample.1 sample.2)
    by (apply (bool_decide_unpack (wf sample.1 sample.2)); vm_compute; exact I).
  split; [exact Hwf|]. split; [done|]. split; [|by vm_compute].
  exact (proj1 (Remove_frame sample.1 sample.2 "a" TString "ab" Hwf ltac:(done))).
Defined.

(** X13. [Remove] takes the value off a node that has children: on a
    well-formed trie, when the node at a non-empty [key] has at least one
    child, [Get(key)] is absent after [Remove(key)] at every type, and the
    node itself stays, without a value. *)
Theorem Remove_inner_node σ t key l T' :
  wf σ t → key ≠ EmptyString →
  GetTrieNode σ t key = Some l → children_ (deref σ l) ≠ ∅ →
  Get T' (Remove σ t key).1 (Remove σ t key).2 key = None ∧
  shape (Remove σ t key).1 (root_ (Remove σ t key).2) key = Some None.
Proof.
  intros Hwf Hne Hw Hch.
  assert (Hs : shape (Remove σ t key).1 (root_ (Remove σ t key).2) key = Some None).
  { rewrite Remove_shape by done. rewrite decide_True by done.
    unfold Remove_strips. destruct key; [done|]. rewrite Hw.
    by rewrite bool_decide_eq_true_2. }
  split; [|done]. by rewrite Get_val, val_shape, Hs.
Qed.

Lemma Remove_inner_node_witness :
  wf sample.1 sample.2 ∧ "a" ≠ EmptyString ∧
  GetTrieNode sample.1 sample.2 "a" = Some 3 ∧
  children_ (deref sample.1 3) ≠ ∅ ∧
  Get TUint32 sample.1 sample.2 "a" = Some 1%Z ∧
  Get TUint32 (Remove sample.1 sample.2 "a").1 (Remove sample.1 sample.2 "a").2 "a" = None.
Proof.
  assert (Hwf : wf sample.1 sample.2)
    by (apply (bool_decide_unpack (wf sample.1 sample.2)); vm_compute; exact I).
  assert (Hw : GetTrieNode sample.1 sample.2 "a" = Some 3) by (by vm_compute).
  assert (Hch : children_ (deref sample.1 3) ≠ ∅) by (by vm_compute).
  split; [exact Hwf|]. split; [done|]. split; [exact Hw|]. split; [exact Hch|].
  split; [by vm_compute|].
  exact (proj1 (Remove_inner_node sample.1 sample.2 "a" 3 TUint32 Hwf ltac:(done) Hw Hch)).
Defined.

(** X14. [Remove] adds nothing: on a well-formed trie, a value retrieved
    after [Remove(key)] was retrieved before, at the same key and type, and a
    key that leads to a node afterwards led to one before. *)
Theorem Remove_adds_nothing σ t key T' k' :
  wf σ t →
  (∀ v, Get T' (Remove σ t key).1 (Remove σ t key).2 k' = Some v →
        Get T' σ t k' = Some v) ∧
  (is_Some (GetTrieNode (Remove σ t key).1 (Remove σ t key).2 k') →
   is_Some (GetTrieNode σ t k')).
Proof.
  intros Hwf.
  pose proof (Remove_shape σ t key k' Hwf) as Hs.
  destruct (decide (k' = key)) as [->|Hk].
  2:{ split.
      - intros v. by rewrite !Get_val, !val_shape, Hs.
      - unfold GetTrieNode. by rewrite <- !shape_is_Some, Hs. }
  destruct (Remove_strips σ t key) eqn:Es.
  - split.
    + intros v. by rewrite Get_val, val_shape, Hs.
    + intros _. unfold Remove_strips in Es. destruct key; [done|].
      by destruct (GetTrieNode σ t (String a key)).
  - split.
    + intros v. by rewrite !Get_val, !val_shape, Hs.
    + unfold GetTrieNode. by rewrite <- !shape_is_Some, Hs.
Qed.

Lemma Remove_adds_nothing_witness :
  wf sample.1 sample.2 ∧
  (Get TString (Remove sample.1 sample.2 "a").1 (Remove sample.1 sample.2 "a").2 "ab"
   = Some "x" →
   Get TString sample.1 sample.2 "ab" = Some "x") ∧
  Get TString (Remove sample.1 sample.2 "a").1 (Remove sample.1 sample.2 "a").2 "ab"
  = Some "x".
Proof.
  assert (Hwf : wf sample.1 sample.2)
    by (apply (bool_decide_unpack (wf sample.1 sample.2)); vm_compute; exact I).
  split; [exact Hwf|]. split; [|by vm_compute].
  exact (proj1 (Remove_adds_nothing sample.1 sample.2 "a" TString "ab" Hwf) "x").
Defined.

(** X15. When the path of a non-empty [key] exists in a well-formed trie,
    [Remove(key)] constructs one node for the root and one for each symbol of
    the key: the store grows by the length of the key plus one. *)
Theorem Remove_allocates σ t key :
  wf σ t → key ≠ EmptyString → is_Some (GetTrieNode σ t key) →
  length (Remove σ t key).1 = length σ + String.length key + 1.
Proof.
  intros [Hc Hr] Hne [lk Hw].
  destruct key as [|ch rest]; [done|].
  unfold Remove. rewrite Hw. unfold GetTrieNode in Hw.
  destruct (root_ t) as [r|]; [|done]. simpl in Hr.
  cbn [alloc fst].
  set (σ0 := σ ++ [Clone (deref σ r)]).
  assert (Hag : agree (length σ) σ0 σ).
  { intros l Hl. by apply deref_alloc_old. }
  assert (Hoc : old_closed (length σ) σ) by (by apply closed_old_closed).
  assert (Hroot : deref σ0 (length σ) = deref σ r).
  { unfold σ0. rewrite deref_alloc_new. apply Clone_id. }
  rewrite (Remove_loop_length (String ch rest) (length σ) σ0 (length σ) lk);
    [|by eapply old_closed_agree|lia| | |].
  - unfold σ0. rewrite length_app. simpl. lia.
  - unfold σ0. rewrite length_app. simpl. lia.
  - rewrite Hroot. by apply Hoc.
  - rewrite <- Hw. apply (walk_children (length σ)); [done|done|by apply Hoc|].
    by rewrite Hroot.
Qed.

Lemma Remove_allocates_witness :
  wf sample.1 sample.2 ∧ "ab" ≠ EmptyString ∧
  is_Some (GetTrieNode sample.1 sample.2 "ab") ∧
  length (Remove sample.1 sample.2 "ab").1 = length sample.1 + 2 + 1.
Proof.
  assert (Hwf : wf sample.1 sample.2)
    by (apply (bool_decide_unpack (wf sample.1 sample.2)); vm_compute; exact I).
  assert (Hw : is_Some (GetTrieNode sample.1 sample.2 "ab"))
    by (vm_compute; by eexists).
  split; [exact Hwf|]. split; [done|]. split; [exact Hw|].
  exact (Remove_allocates sample.1 sample.2 "ab" Hwf ltac:(done) Hw).
Defined.

(** X16. [Remove] keeps the store well formed: the trie it returns is well
    formed, and so is every snapshot that was. *)
Theorem Remove_keeps_wf σ t key :
  wf σ t →
  wf (Remove σ t key).1 (Remove σ t key).2 ∧
  ∀ t0, wf σ t0 → wf (Remove σ t key).1 t0.
Proof.
  intros Hwf. pose proof (Remove_wf σ t key Hwf) as Hwf1.
  split; [done|]. intros t0 [_ Hr0]. split; [apply Hwf1|].
  destruct (root_ t0) as [r0|]; [|done]. simpl in *.
  assert (length σ ≤ length (Remove σ t key).1); [|lia].
  unfold Remove. destruct key as [|ch rest]; [done|].
  destruct (root_ t) as [r|]; [|done].
  destruct (GetTrieNode σ t (String ch rest)); [|done].
  cbn [alloc fst].
  pose proof (proj1 (Remove_loop_frame (String ch rest)
                       (σ ++ [Clone (deref σ r)]) (length σ))) as Hlen.
  rewrite length_app in Hlen. cbn [length] in Hlen. lia.
Qed.

Lemma Remove_keeps_wf_witness :
  wf sample.1 sample.2 ∧
  wf (Remove sample.1 sample.2 "a").1 (Remove sample.1 sample.2 "a").2 ∧
  wf (Remove sample.1 sample.2 "a").1 sample.2.
Proof.
  assert (Hwf : wf sample.1 sample.2)
    by (apply (bool_decide_unpack (wf sample.1 sample.2)); vm_compute; exact I).
  split; [exact Hwf|].
  destruct (Remove_keeps_wf sample.1 sample.2 "a" Hwf) as [H1 H2].
  split; [exact H1|]. exact (H2 sample.2 Hwf).
Defined.
